(** * Word count by map / shuffle / reduce: [map_reducer.py]

    A shallow embedding of the script and the properties of its pipeline.

    Modelling choices, all read off the source:
    - a Python [str] is the list of its code points ([N]);
    - a Python [int] is a [Z];
    - a Python [dict] (and the [defaultdict] of the shuffle step) is an
      association list in insertion order with unique keys: CPython
      dictionaries iterate in insertion order, and [sorted] is stable, so
      the order is observable in [visualize_top_words];
    - [str.lower] depends on the Unicode tables of the interpreter; it is a
      parameter of the development ([lower]), and [ascii_lower] is its
      restriction to ASCII text, used to run the pipeline on examples;
    - logging, the HTTP request and the matplotlib calls are recorded as a
      trace of events; an uncaught exception ends the run. *)

From Stdlib Require Import String Ascii.
From Stdlib Require Import List ZArith NArith Lia Bool Arith.
From Stdlib Require Import Permutation Sorting.Sorted.
Import ListNotations.

Set Implicit Arguments.

Local Open Scope Z_scope.

(** ** Strings *)

Definition char := N.
Definition str := list char.

Definition char_eq_dec : forall a b : char, {a = b} + {a <> b} := N.eq_dec.
Definition str_eq_dec : forall a b : str, {a = b} + {a <> b} :=
  list_eq_dec char_eq_dec.

Definition str_eqb (a b : str) : bool :=
  if str_eq_dec a b then true else false.

(** A Rocq literal as a Python string (ASCII literals only). *)
Definition py (s : string) : str := map N_of_ascii (list_ascii_of_string s).

(** [string.punctuation]: the 32 ASCII characters
    ! to /, : to @, [ to `, { to ~. *)
Definition punctuation : str :=
  [33; 34; 35; 36; 37; 38; 39; 40; 41; 42; 43; 44; 45; 46; 47;
   58; 59; 60; 61; 62; 63; 64;
   91; 92; 93; 94; 95; 96;
   123; 124; 125; 126]%N.

Definition mem_char (c : char) (s : str) : bool := existsb (N.eqb c) s.

Definition is_punctuation (c : char) : bool := mem_char c punctuation.

(** The characters [str.split()] treats as white space (CPython's
    [_PyUnicode_IsWhitespace]). *)
Definition whitespace : str :=
  [9; 10; 11; 12; 13; 28; 29; 30; 31; 32; 133; 160; 5760;
   8192; 8193; 8194; 8195; 8196; 8197; 8198; 8199; 8200; 8201; 8202;
   8232; 8233; 8239; 8287; 12288]%N.

Definition isspace (c : char) : bool := mem_char c whitespace.

(** [str.lower] on ASCII text: A-Z to a-z, every other character kept. *)
Definition ascii_lower_char (c : char) : char :=
  if ((65 <=? c) && (c <=? 90))%N then (c + 32)%N else c.

Definition ascii_lower (s : str) : str := map ascii_lower_char s.

(** ** Tokenizer *)

(** [text.translate(str.maketrans("", "", string.punctuation))]: the
    translation table maps every punctuation character to [None], which
    deletes it; every other character is kept. *)
Definition remove_punctuation (text : str) : str :=
  filter (fun c => negb (is_punctuation c)) text.

(** [str.split()] with no separator: scan the text, collecting the current
    word in [cur]; a white-space character ends the current word, and a
    word is emitted only when it is not empty. *)
Definition flush (cur : str) : list str :=
  match cur with
  | [] => []
  | _ :: _ => [cur]
  end.

Fixpoint split_from (cur : str) (s : str) : list str :=
  match s with
  | [] => flush cur
  | c :: s' =>
      if isspace c then flush cur ++ split_from [] s'
      else split_from (cur ++ [c]) s'
  end.

Definition split (s : str) : list str := split_from [] s.

(** Lines 102-103 of [map_reduce]. *)
Definition tokenize (text : str) : list str := split (remove_punctuation text).

(** A well-formed token: not empty, free of punctuation and white space. *)
Definition token_ok (w : str) : Prop :=
  w <> [] /\
  Forall (fun c => is_punctuation c = false /\ isspace c = false) w.

(** A run made of punctuation and white-space characters only. *)
Definition separator_run (r : str) : Prop :=
  Forall (fun c => is_punctuation c = true \/ isspace c = true) r.

(** ** Dictionaries *)

(** A dictionary with string keys: the items in insertion order. *)
Definition dict (V : Type) := list (str * V).

(** The keys of a dictionary are pairwise distinct. *)
Definition dict_wf (V : Type) (d : dict V) : Prop := NoDup (map fst d).

Fixpoint dict_get (V : Type) (k : str) (d : dict V) : option V :=
  match d with
  | [] => None
  | (k', v) :: d' => if str_eqb k k' then Some v else dict_get k d'
  end.

(** [d[k] = v]: an existing key keeps its place, a new key goes last. *)
Fixpoint dict_set (V : Type) (k : str) (v : V) (d : dict V) : dict V :=
  match d with
  | [] => [(k, v)]
  | (k', v') :: d' =>
      if str_eqb k k' then (k', v) :: d' else (k', v') :: dict_set k v d'
  end.

(** [dict(pairs)]: the pairs are stored one after the other. *)
Definition dict_of_pairs (V : Type) (pairs : list (str * V)) : dict V :=
  fold_left (fun d kv => dict_set (fst kv) (snd kv) d) pairs [].

(** [sum(values)]: left to right from 0. *)
Definition sum (values : list Z) : Z := fold_left Z.add values 0.

Definition values (V : Type) (d : dict V) : list V := map snd d.

(** Two mappings hold the same key/value pairs, in whatever order. *)
Definition same_items (V : Type) (d d' : dict V) : Prop :=
  forall k v, In (k, v) d <-> In (k, v) d'.

(** ** Shuffle and reduce *)

(** [shuffled[key].append(value)] on a [defaultdict(list)]: a missing key is
    first bound to the empty list, at the end of the dictionary. *)
Fixpoint append_value (key : str) (value : Z) (shuffled : dict (list Z))
  : dict (list Z) :=
  match shuffled with
  | [] => [(key, [] ++ [value])]
  | (k, vs) :: rest =>
      if str_eqb key k then (k, vs ++ [value]) :: rest
      else (k, vs) :: append_value key value rest
  end.

Definition shuffle_function (mapped_values : list (str * Z))
  : list (str * list Z) :=
  fold_left (fun shuffled kv => append_value (fst kv) (snd kv) shuffled)
            mapped_values [].

Definition reduce_function (item : str * list Z) : str * Z :=
  let (key, values) := item in (key, sum values).

(** ** The worker pool *)

(** [executor.map(f, xs)] submits one call per element and yields the
    results in the order of [xs], whatever the order in which the workers
    finish: as a function it is [map]. *)
Definition executor_map (A B : Type) (f : A -> B) (xs : list A) : list B :=
  map f xs.

(** The same with the workers made explicit. A schedule lists the
    submitted calls (by position) in the order in which they complete; each
    completed call fills its own future, and the results are read from the
    futures in submission order. A future that is never filled blocks the
    caller: no result. *)
Definition schedule := list nat.

Fixpoint set_nth (A : Type) (i : nat) (x : A) (l : list A) : list A :=
  match l, i with
  | [], _ => []
  | _ :: l', O => x :: l'
  | y :: l', S i' => y :: set_nth i' x l'
  end.

Definition run_call (A B : Type) (f : A -> B) (xs : list A)
           (futures : list (option B)) (i : nat) : list (option B) :=
  match nth_error xs i with
  | Some x => set_nth i (Some (f x)) futures
  | None => futures
  end.

Definition run_pool (A B : Type) (sched : schedule) (f : A -> B) (xs : list A)
  : list (option B) :=
  fold_left (run_call f xs) sched (repeat None (length xs)).

Fixpoint results (B : Type) (futures : list (option B)) : option (list B) :=
  match futures with
  | [] => Some []
  | None :: _ => None
  | Some y :: rest =>
      match results rest with
      | Some ys => Some (y :: ys)
      | None => None
      end
  end.

Definition pool_map (A B : Type) (sched : schedule) (f : A -> B) (xs : list A)
  : option (list B) :=
  results (run_pool sched f xs).

(** Every one of the first [n] submitted calls completes. *)
Definition completes (sched : schedule) (n : nat) : Prop :=
  forall i, (i < n)%nat -> In i sched.

(** A completed call holds the value of its own element. *)
Definition done (A B : Type) (f : A -> B) (xs : list A)
           (futures : list (option B)) (i : nat) : Prop :=
  exists x, nth_error xs i = Some x /\ nth_error futures i = Some (Some (f x)).

(** ** Ranking *)

(** [sorted(items, key=lambda item: item[1], reverse=True)]: a stable sort
    by decreasing count; items of equal count keep their relative order. *)
Fixpoint insert_desc (item : str * Z) (sorted : list (str * Z))
  : list (str * Z) :=
  match sorted with
  | [] => [item]
  | y :: rest =>
      if snd item <? snd y then y :: insert_desc item rest
      else item :: sorted
  end.

Definition sorted_desc (items : list (str * Z)) : list (str * Z) :=
  fold_right insert_desc [] items.

(** The slice [l[:n]]: the first [n] elements, and for a negative [n] all
    but the last [-n]. *)
Definition slice_to (A : Type) (n : Z) (l : list A) : list A :=
  if 0 <=? n then firstn (Z.to_nat n) l
  else firstn (length l - Z.to_nat (- n)) l.

(** Line 126 of [visualize_top_words]. *)
Definition top_words (word_counts : dict Z) (top_n : Z) : list (str * Z) :=
  slice_to top_n (sorted_desc (word_counts)).

Definition descending (l : list (str * Z)) : Prop :=
  StronglySorted (fun a b => snd b <= snd a) l.

(** ** Effects *)

(** What [requests.get] does for a URL: it raises a [RequestException]
    (no connection, timeout, ...) or returns a response. *)
Inductive reply : Type :=
| Fails (detail : str)
| Response (status_code : Z) (text : str).

Inductive request_exception : Type :=
| TransportError (detail : str)
| HTTPError (status_code : Z).

Inductive message : Type :=
| Retrieved (url : str)
| RetrieveFailed (e : request_exception)
| Completed
| Displayed (top_n : Z)
| NotExecuted.

Inductive plt_call : Type :=
| Figure
| Bar (words : list str) (counts : list Z)
| Xlabel
| Ylabel
| Title (top_n : Z)
| Xticks
| TightLayout
| Show.

Inductive event : Type :=
| Get (url : str)
| Info (m : message)
| Error (m : message)
| Plt (c : plt_call).

Inductive exn : Type :=
| ValueError.

(** A computation: the events it performs, then an uncaught exception or a
    value. *)
Definition io (A : Type) : Type := list event * (exn + A).

Definition ret (A : Type) (a : A) : io A := ([], inr a).

Definition raise {A : Type} (e : exn) : io A := ([], inl e).

Definition emit (ev : event) : io unit := ([ev], inr tt).

Definition bind (A B : Type) (c : io A) (k : A -> io B) : io B :=
  match c with
  | (tr, inl e) => (tr, inl e)
  | (tr, inr a) => let (tr', r) := k a in (tr ++ tr', r)
  end.

Notation "x <- c ;; k" := (bind c (fun x => k))
  (at level 61, c at next level, right associativity).
Notation "c ;; k" := (bind c (fun _ => k))
  (at level 61, right associativity).

Definition trace (A : Type) (c : io A) : list event := fst c.

(** [response.raise_for_status()]: an [HTTPError] for a 4xx or 5xx status. *)
Definition raise_for_status (status_code : Z) : option request_exception :=
  if (400 <=? status_code) && (status_code <? 600)
  then Some (HTTPError status_code) else None.

(** The body of the [try] block of [get_text]: the request and the status
    check, with the [RequestException] either of them raises. *)
Definition fetch (net : str -> reply) (url : str) : request_exception + str :=
  match net url with
  | Fails detail => inl (TransportError detail)
  | Response status_code text =>
      match raise_for_status status_code with
      | Some e => inl e
      | None => inr text
      end
  end.

Definition get_text (net : str -> reply) (url : str) : io (option str) :=
  emit (Get url) ;;
  match fetch net url with
  | inr text => emit (Info (Retrieved url)) ;; ret (Some text)
  | inl e => emit (Error (RetrieveFailed e)) ;; ret None
  end.

(** Line 127, [zip] applied to the unpacked [sorted_words] and bound to
    [words, counts]: [zip] of no argument yields
    nothing, and unpacking nothing into two names raises [ValueError]; of
    one or more pairs it yields the tuple of the words and the tuple of the
    counts. *)
Definition unzip (sorted_words : list (str * Z)) : io (list str * list Z) :=
  match sorted_words with
  | [] => raise ValueError
  | _ :: _ => ret (map fst sorted_words, map snd sorted_words)
  end.

Definition visualize_top_words (word_counts : dict Z) (top_n : Z) : io unit :=
  let sorted_words := top_words word_counts top_n in
  wc <- unzip sorted_words ;;
  let (words, counts) := wc : list str * list Z in
  emit (Plt Figure) ;;
  emit (Plt (Bar words counts)) ;;
  emit (Plt Xlabel) ;;
  emit (Plt Ylabel) ;;
  emit (Plt (Title top_n)) ;;
  emit (Plt Xticks) ;;
  emit (Plt TightLayout) ;;
  emit (Plt Show) ;;
  emit (Info (Displayed top_n)).

Definition is_plt (ev : event) : bool :=
  match ev with
  | Plt _ => true
  | _ => false
  end.

Definition is_get (ev : event) : bool :=
  match ev with
  | Get _ => true
  | _ => false
  end.

Definition is_completed (ev : event) : bool :=
  match ev with
  | Info Completed => true
  | _ => false
  end.

(** The hard-coded source of the entry point. *)
Definition url : str := py "https://gutenberg.net.au/ebooks01/0100021.txt".

(** ** Reference definitions, in the words of the specification *)

(** The distinct words of a sequence, each at its first occurrence. *)
Fixpoint distinct (ws : list str) : list str :=
  match ws with
  | [] => []
  | w :: ws' => w :: remove str_eq_dec w (distinct ws')
  end.

(** Counting tokens: every distinct token with its number of occurrences. *)
Definition count_tokens (ws : list str) : dict Z :=
  map (fun w => (w, Z.of_nat (count_occ str_eq_dec ws w))) (distinct ws).

(** The counts recorded under key [k], in the order of the sequence. *)
Definition key_values (k : str) (l : list (str * Z)) : list Z :=
  map snd (filter (fun kv => str_eqb (fst kv) k) l).

(** Grouping by key: one entry per distinct key, with its counts. *)
Definition group (l : list (str * Z)) : dict (list Z) :=
  map (fun k => (k, key_values k l)) (distinct (map fst l)).

(** The total of every key. *)
Definition totals (l : list (str * Z)) : dict Z :=
  map (fun k => (k, sum (key_values k l))) (distinct (map fst l)).

(** ** The pipeline, for a given [str.lower] *)

Section Pipeline.

Variable lower : str -> str.

Definition map_function (word : str) : str * Z := (lower word, 1).

Definition map_reduce (text : str) : dict Z :=
  let text := remove_punctuation text in
  let words := split text in
  let mapped_values := executor_map map_function words in
  let shuffled_values := shuffle_function mapped_values in
  let reduced_values :=
    dict_of_pairs (executor_map reduce_function shuffled_values) in
  reduced_values.

(** [map_reduce] with the two pools scheduled by [s1] and [s2]. *)
Definition map_reduce_pool (s1 s2 : schedule) (text : str) : option (dict Z) :=
  let text := remove_punctuation text in
  let words := split text in
  match pool_map s1 map_function words with
  | None => None
  | Some mapped_values =>
      let shuffled_values := shuffle_function mapped_values in
      match pool_map s2 reduce_function shuffled_values with
      | None => None
      | Some reduced => Some (dict_of_pairs reduced)
      end
  end.

(** Both pools of a run on [text] complete all their calls. *)
Definition fair (s1 s2 : schedule) (text : str) : Prop :=
  completes s1 (length (tokenize text)) /\
  completes s2
    (length (shuffle_function (map map_function (tokenize text)))).

(** [map_reduce] with its log line. *)
Definition map_reduce_io (text : str) : io (dict Z) :=
  let reduced_values := map_reduce text in
  emit (Info Completed) ;;
  ret reduced_values.

(** The [__main__] block, for a given network. [if text:] takes the first
    branch for a non-empty string only: [None] and the empty string are
    false. *)
Definition main (net : str -> reply) : io unit :=
  text <- get_text net url ;;
  match text with
  | Some (c :: rest) =>
      word_counts <- map_reduce_io (c :: rest) ;;
      visualize_top_words word_counts 11
  | Some [] | None => emit (Error NotExecuted)
  end.

(** The occurrences of [k] among the case-folded tokens of [text]. *)
Definition occurrences (k : str) (text : str) : nat :=
  count_occ str_eq_dec (map lower (tokenize text)) k.

End Pipeline.

(** [d.get(k, 0)]: the count of a word, 0 for a word that is not a key. *)
Definition count_of (k : str) (d : dict Z) : Z :=
  match dict_get k d with
  | Some v => v
  | None => 0
  end.

(** The matplotlib calls and the log line of a chart. *)
Definition chart (words : list str) (counts : list Z) (top_n : Z)
  : list event :=
  [Plt Figure; Plt (Bar words counts); Plt Xlabel; Plt Ylabel;
   Plt (Title top_n); Plt Xticks; Plt TightLayout; Plt Show;
   Info (Displayed top_n)].


(** ** Sample inputs *)

Definition the_cat : str := py "The cat sat. The cat ran!".

Definition three_words : dict Z := [(py "a", 1); (py "b", 3); (py "c", 2)].

(** Networks answering every request alike. *)
Definition not_found : str -> reply := fun _ => Response 404 (py "Not Found").

Definition empty_body : str -> reply := fun _ => Response 200 [].

Definition blank_body : str -> reply := fun _ => Response 200 (py " ").

Definition cat_body : str -> reply := fun _ => Response 200 the_cat.

Definition a_b_a : list (str * Z) := [(py "a", 1); (py "b", 1); (py "a", 1)].

(** * Properties *)

(** ** Tokenizer *)

Lemma mem_char_In c s : mem_char c s = true <-> In c s.
Proof.
  unfold mem_char. rewrite existsb_exists. split.
  - intros (x & Hx & Heq). apply N.eqb_eq in Heq. now subst.
  - intros Hc. exists c. split; [assumption | apply N.eqb_refl].
Qed.

Lemma space_not_punctuation c : isspace c = true -> is_punctuation c = false.
Proof.
  unfold isspace. rewrite mem_char_In. intros Hc.
  unfold whitespace in Hc. simpl in Hc.
  repeat (destruct Hc as [<- | Hc]; [reflexivity | ]).
  contradiction.
Qed.

Lemma remove_punctuation_app u v :
  remove_punctuation (u ++ v) = remove_punctuation u ++ remove_punctuation v.
Proof. apply filter_app. Qed.

Lemma remove_punctuation_In c text :
  In c (remove_punctuation text) <-> In c text /\ is_punctuation c = false.
Proof.
  unfold remove_punctuation. rewrite filter_In, negb_true_iff. reflexivity.
Qed.

Lemma flush_nonempty cur : Forall (fun w => w <> []) (flush cur).
Proof.
  destruct cur; simpl; constructor; [discriminate | constructor].
Qed.

Lemma split_from_nonempty s : forall cur,
  Forall (fun w => w <> []) (split_from cur s).
Proof.
  induction s as [|c s IH]; intros cur; simpl.
  - apply flush_nonempty.
  - destruct (isspace c).
    + apply Forall_app. split; [apply flush_nonempty | apply IH].
    + apply IH.
Qed.

Lemma flush_Forall (P : char -> Prop) cur :
  Forall P cur -> Forall (Forall P) (flush cur).
Proof.
  intros H. destruct cur; simpl; constructor; [assumption | constructor].
Qed.

(** The words of a text are made of its characters other than white space. *)
Lemma split_from_chars (P : char -> Prop) s : forall cur,
  Forall (fun c => P c /\ isspace c = false) cur -> Forall P s ->
  Forall (Forall (fun c => P c /\ isspace c = false)) (split_from cur s).
Proof.
  induction s as [|c s IH]; intros cur Hcur Hs; simpl.
  - now apply flush_Forall.
  - inversion Hs as [|? ? Hc Hs']; subst.
    destruct (isspace c) eqn:E.
    + apply Forall_app. split; [now apply flush_Forall | ].
      apply IH; [constructor | assumption].
    + apply IH; [ | assumption].
      apply Forall_app. split; [assumption | ]. now repeat constructor.
Qed.

Lemma split_chars (P : char -> Prop) s :
  Forall P s ->
  Forall (Forall (fun c => P c /\ isspace c = false)) (split s).
Proof. intros Hs. apply split_from_chars; [constructor | assumption]. Qed.

Lemma split_from_app_space cur u c v :
  isspace c = true ->
  split_from cur (u ++ c :: v) = split_from cur u ++ split_from [] v.
Proof.
  intros Hc. revert cur. induction u as [|a u IH]; intros cur; simpl.
  - now rewrite Hc.
  - destruct (isspace a).
    + now rewrite IH, app_assoc.
    + apply IH.
Qed.

Lemma split_from_spaces ws v :
  Forall (fun c => isspace c = true) ws ->
  split_from [] (ws ++ v) = split_from [] v.
Proof.
  induction 1 as [|c ws Hc _ IH]; simpl; [reflexivity | ].
  now rewrite Hc.
Qed.

(** A non-empty run of white space is one boundary. *)
Lemma split_app_spaces u ws v :
  ws <> [] -> Forall (fun c => isspace c = true) ws ->
  split (u ++ ws ++ v) = split u ++ split v.
Proof.
  intros Hne Hws. destruct ws as [|c ws]; [congruence | ].
  inversion Hws; subst. unfold split. simpl.
  rewrite split_from_app_space by assumption.
  now rewrite split_from_spaces.
Qed.

Lemma separator_run_spaces r :
  separator_run r ->
  Forall (fun c => isspace c = true) (remove_punctuation r).
Proof.
  unfold separator_run. rewrite !Forall_forall. intros H c Hc.
  apply remove_punctuation_In in Hc. destruct Hc as [Hc Hp].
  destruct (H c Hc) as [Hq | Hq]; [congruence | assumption].
Qed.

Lemma separator_run_punctuation r :
  separator_run r -> existsb isspace r = false -> remove_punctuation r = [].
Proof.
  intros H E. induction H as [|c r Hc _ IH]; [reflexivity | ].
  simpl in E. apply orb_false_iff in E. destruct E as [E1 E2].
  unfold remove_punctuation in *. simpl.
  destruct Hc as [Hc | Hc]; [ | congruence].
  rewrite Hc. simpl. auto.
Qed.

(** The characters of the tokens, in order, are the characters of the text
    that are neither punctuation nor white space. *)
Lemma concat_split_from s : forall cur,
  Forall (fun c => isspace c = false) cur ->
  concat (split_from cur s) = cur ++ filter (fun c => negb (isspace c)) s.
Proof.
  assert (Hflush : forall cur, concat (flush cur) = cur).
  { intros [|c cur]; simpl; [reflexivity | now rewrite app_nil_r]. }
  induction s as [|c s IH]; intros cur Hcur; simpl.
  - now rewrite Hflush, app_nil_r.
  - destruct (isspace c) eqn:E; simpl.
    + rewrite concat_app, Hflush, IH by constructor. reflexivity.
    + rewrite IH, <- app_assoc; [reflexivity | ].
      apply Forall_app. split; [assumption | now constructor].
Qed.

Lemma tokens_ok text : Forall token_ok (tokenize text).
Proof.
  unfold tokenize, token_ok.
  assert (Hne := split_from_nonempty (remove_punctuation text) []).
  assert (Hch : Forall (Forall (fun c => is_punctuation c = false
                                        /\ isspace c = false))
                  (split (remove_punctuation text))).
  { apply split_chars. apply Forall_forall. intros c Hc.
    now apply remove_punctuation_In in Hc. }
  fold (split (remove_punctuation text)) in Hne.
  rewrite Forall_forall in *. intros w Hw. split; auto.
Qed.

(** Splitting happens at white space only: a text without white space is
    a single word, or no word when it is empty. *)
Lemma split_from_no_space s : forall cur,
  Forall (fun c => isspace c = false) s ->
  split_from cur s = flush (cur ++ s).
Proof.
  induction s as [|c s IH]; intros cur Hs; simpl.
  - now rewrite app_nil_r.
  - inversion Hs as [|? ? Hc Hs']; subst. rewrite Hc, IH by assumption.
    now rewrite <- app_assoc.
Qed.

Lemma tokenize_no_space w :
  Forall (fun c => isspace c = false) w ->
  tokenize w = flush (remove_punctuation w).
Proof.
  intros Hw. unfold tokenize, split. rewrite split_from_no_space.
  - reflexivity.
  - rewrite Forall_forall in *. intros c Hc.
    apply remove_punctuation_In in Hc. now apply Hw.
Qed.

(** C3, as the code has it: the tokens of every text are non-empty and
    free of punctuation and white space, and together they are the text
    without its punctuation and white-space characters; a run of
    punctuation and white-space characters is a single split boundary when
    it holds a white-space character, and no boundary at all when it is
    punctuation only (the characters on its two sides are joined); and the
    splitting is at white space only: a text [w] without white space is one
    token, made of all its characters other than punctuation (no token when
    there is none). *)
Theorem tokenize_separator_run (text u r v w : str) :
  separator_run r ->
  Forall token_ok (tokenize text) /\
  concat (tokenize text) =
    filter (fun c => negb (isspace c)) (remove_punctuation text) /\
  tokenize (u ++ r ++ v) =
    (if existsb isspace r then tokenize u ++ tokenize v
     else tokenize (u ++ v)) /\
  (Forall (fun c => isspace c = false) w ->
   tokenize w = flush (remove_punctuation w)).
Proof.
  intros Hr. split; [apply tokens_ok | split; [ | split]].
  - unfold tokenize, split. now rewrite concat_split_from by constructor.
  - unfold tokenize. rewrite !remove_punctuation_app.
    destruct (existsb isspace r) eqn:E.
    + apply split_app_spaces; [ | now apply separator_run_spaces].
      apply existsb_exists in E. destruct E as (c & Hc & Hs).
      assert (Hin : In c (remove_punctuation r)).
      { apply remove_punctuation_In. split; [assumption | ].
        now apply space_not_punctuation. }
      intros Heq. rewrite Heq in Hin. contradiction.
    + now rewrite (separator_run_punctuation Hr E).
  - apply tokenize_no_space.
Qed.

(** ** Sums, keys and dictionaries *)

Lemma str_eqb_eq a b : str_eqb a b = true <-> a = b.
Proof. unfold str_eqb. destruct (str_eq_dec a b); split; congruence. Qed.

Lemma str_eqb_refl a : str_eqb a a = true.
Proof. now apply str_eqb_eq. Qed.

Lemma str_eqb_neq a b : str_eqb a b = false <-> a <> b.
Proof. unfold str_eqb. destruct (str_eq_dec a b); split; congruence. Qed.

Lemma fold_add l : forall a, fold_left Z.add l a = a + fold_left Z.add l 0.
Proof.
  induction l as [|x l IH]; intros a; simpl; [lia | ].
  rewrite (IH (a + x)), (IH x). lia.
Qed.

Lemma sum_cons x l : sum (x :: l) = x + sum l.
Proof. unfold sum. simpl. apply fold_add. Qed.

Lemma sum_app l l' : sum (l ++ l') = sum l + sum l'.
Proof.
  induction l as [|x l IH]; simpl; [reflexivity | ].
  rewrite !sum_cons, IH. lia.
Qed.

Lemma sum_nil : sum [] = 0.
Proof. reflexivity. Qed.

Create Rewrite HintDb sums.
#[local] Hint Rewrite sum_nil sum_cons sum_app : sums.

Lemma sum_ones n : sum (repeat 1 n) = Z.of_nat n.
Proof.
  induction n as [|n IH]; [reflexivity | ].
  cbn [repeat]. rewrite sum_cons, IH. lia.
Qed.

Lemma key_values_snoc k' l k v :
  key_values k' (l ++ [(k, v)]) =
  key_values k' l ++ (if str_eqb k k' then [v] else []).
Proof.
  unfold key_values. rewrite filter_app, map_app. simpl.
  now destruct (str_eqb k k').
Qed.

Lemma key_values_absent k l : ~ In k (map fst l) -> key_values k l = [].
Proof.
  unfold key_values. induction l as [|[k' v] l IH]; simpl; intros Hk;
    [reflexivity | ].
  destruct (str_eqb k' k) eqn:E.
  - apply str_eqb_eq in E. tauto.
  - apply IH. tauto.
Qed.

Lemma NoDup_remove_elt w l : NoDup l -> NoDup (remove str_eq_dec w l).
Proof.
  induction 1 as [|x l Hx _ IH]; simpl; [constructor | ].
  destruct (str_eq_dec w x); [assumption | ].
  constructor; [ | assumption].
  intros Hin. apply in_remove in Hin. tauto.
Qed.

Lemma distinct_In k ws : In k (distinct ws) <-> In k ws.
Proof.
  induction ws as [|w ws IH]; simpl; [reflexivity | ].
  split.
  - intros [-> | Hin]; [now left | ].
    apply in_remove in Hin. right. now apply IH.
  - intros [-> | Hin]; [now left | ].
    destruct (str_eq_dec w k) as [-> | Hne]; [now left | right].
    apply in_in_remove; [congruence | now apply IH].
Qed.

Lemma distinct_NoDup ws : NoDup (distinct ws).
Proof.
  induction ws as [|w ws IH]; simpl; constructor.
  - apply remove_In.
  - now apply NoDup_remove_elt.
Qed.

(** A word seen before adds nothing; a new word goes last. *)
Lemma distinct_snoc ws k :
  distinct (ws ++ [k]) =
  if in_dec str_eq_dec k ws then distinct ws else distinct ws ++ [k].
Proof.
  induction ws as [|w ws IH]; simpl; [reflexivity | ].
  rewrite IH. destruct (in_dec str_eq_dec k ws) as [Hin | Hnin].
  - destruct (str_eq_dec w k); reflexivity.
  - rewrite remove_app. simpl.
    destruct (str_eq_dec w k) as [-> | Hne].
    + destruct (str_eq_dec k k); [ | congruence]. now rewrite app_nil_r.
    + destruct (str_eq_dec w k); [congruence | ].
      destruct (in_dec str_eq_dec k ws); [contradiction | reflexivity].
Qed.

Lemma dict_get_map (V : Type) (F : str -> V) k D :
  dict_get k (map (fun k' => (k', F k')) D) =
  if in_dec str_eq_dec k D then Some (F k) else None.
Proof.
  induction D as [|a D IH]; simpl; [reflexivity | ].
  destruct (str_eqb k a) eqn:E.
  - apply str_eqb_eq in E. subst a.
    destruct (str_eq_dec k k); [reflexivity | congruence].
  - apply str_eqb_neq in E. rewrite IH.
    destruct (str_eq_dec a k); [congruence | ].
    now destruct (in_dec str_eq_dec k D).
Qed.

Lemma dict_get_In (V : Type) k (v : V) d :
  dict_wf d -> (dict_get k d = Some v <-> In (k, v) d).
Proof.
  unfold dict_wf. induction d as [|[k' v'] d IH]; simpl; intros Hwf.
  - split; [discriminate | contradiction].
  - inversion Hwf as [|? ? Hk Hd]; subst.
    destruct (str_eqb k k') eqn:E.
    + apply str_eqb_eq in E. subst k'. split.
      * intros [= ->]. now left.
      * intros [[= ->] | Hin]; [reflexivity | ].
        exfalso. apply Hk. apply (in_map fst) in Hin. exact Hin.
    + apply str_eqb_neq in E. rewrite (IH Hd). split.
      * now right.
      * intros [[= -> ->] | Hin]; [congruence | assumption].
Qed.

(** Storing a new key appends it. *)
Lemma dict_set_new (V : Type) k (v : V) d :
  ~ In k (map fst d) -> dict_set k v d = d ++ [(k, v)].
Proof.
  induction d as [|[k' v'] d IH]; simpl; intros Hk; [reflexivity | ].
  destruct (str_eqb k k') eqn:E.
  - apply str_eqb_eq in E. subst. tauto.
  - rewrite IH by tauto. reflexivity.
Qed.

(** [dict] of pairs with distinct keys is the pairs themselves. *)
Lemma dict_of_pairs_wf (V : Type) (pairs : list (str * V)) :
  NoDup (map fst pairs) -> dict_of_pairs pairs = pairs.
Proof.
  unfold dict_of_pairs.
  induction pairs as [|[k v] pairs IH] using rev_ind; intros Hnd;
    [reflexivity | ].
  rewrite fold_left_app. simpl. rewrite map_app in Hnd. simpl in Hnd.
  rewrite IH by (now apply NoDup_app_remove_r in Hnd).
  apply dict_set_new. apply NoDup_remove_2 in Hnd.
  now rewrite app_nil_r in Hnd.
Qed.

(** ** Shuffle and reduce *)

Lemma shuffle_snoc l kv :
  shuffle_function (l ++ [kv]) =
  append_value (fst kv) (snd kv) (shuffle_function l).
Proof. unfold shuffle_function. now rewrite fold_left_app. Qed.

(** Appending under [k] in a dictionary with distinct keys: the entry of
    [k] grows by one count, or a new last entry is made. *)
Lemma append_value_map (F : str -> list Z) k v D :
  NoDup D ->
  append_value k v (map (fun k' => (k', F k')) D) =
  map (fun k' => (k', if str_eqb k k' then F k' ++ [v] else F k')) D
  ++ (if in_dec str_eq_dec k D then [] else [(k, [v])]).
Proof.
  induction 1 as [|a D Ha Hnd IH]; simpl; [reflexivity | ].
  destruct (str_eqb k a) eqn:E.
  - apply str_eqb_eq in E. subst a.
    destruct (str_eq_dec k k); [ | congruence].
    rewrite app_nil_r. f_equal. apply map_ext_in. intros k' Hk'.
    destruct (str_eqb k k') eqn:E'; [ | reflexivity].
    apply str_eqb_eq in E'. congruence.
  - apply str_eqb_neq in E. rewrite IH.
    destruct (str_eq_dec a k); [congruence | ].
    now destruct (in_dec str_eq_dec k D).
Qed.

(** The shuffle step groups by key, keys in order of first occurrence. *)
Lemma shuffle_function_group l : shuffle_function l = group l.
Proof.
  induction l as [|[k v] l IH] using rev_ind; [reflexivity | ].
  rewrite shuffle_snoc, IH. unfold group. simpl.
  rewrite append_value_map by apply distinct_NoDup.
  rewrite map_app. simpl. rewrite distinct_snoc.
  assert (Hmap : map (fun k' => (k', if str_eqb k k'
                                      then key_values k' l ++ [v]
                                      else key_values k' l))
                     (distinct (map fst l)) =
                 map (fun k' => (k', key_values k' (l ++ [(k, v)])))
                     (distinct (map fst l))).
  { apply map_ext. intros k'. rewrite key_values_snoc.
    destruct (str_eqb k k'); [reflexivity | now rewrite app_nil_r]. }
  rewrite Hmap.
  destruct (in_dec str_eq_dec k (map fst l)) as [Hin | Hnin];
    destruct (in_dec str_eq_dec k (distinct (map fst l))) as [Hin' | Hnin'].
  - now rewrite app_nil_r.
  - exfalso. apply Hnin'. now apply distinct_In.
  - exfalso. apply Hnin. now apply distinct_In.
  - rewrite map_app. simpl. rewrite key_values_snoc, str_eqb_refl.
    now rewrite (key_values_absent _ _ Hnin).
Qed.

Lemma totals_keys l : map fst (totals l) = distinct (map fst l).
Proof. unfold totals. rewrite map_map. simpl. apply map_id. Qed.

Lemma totals_wf l : dict_wf (totals l).
Proof. unfold dict_wf. rewrite totals_keys. apply distinct_NoDup. Qed.

(** Lines 108-111: shuffle, reduce every group, build the dictionary. *)
Lemma shuffle_reduce_totals l :
  dict_of_pairs (executor_map reduce_function (shuffle_function l)) = totals l.
Proof.
  unfold executor_map. rewrite shuffle_function_group.
  assert (Heq : map reduce_function (group l) = totals l).
  { unfold group, totals. rewrite map_map. reflexivity. }
  rewrite Heq. apply dict_of_pairs_wf. apply totals_wf.
Qed.

Lemma totals_In l k v :
  In (k, v) (totals l) <-> In k (map fst l) /\ v = sum (key_values k l).
Proof.
  unfold totals. rewrite in_map_iff. split.
  - intros (k' & [= -> ->] & Hin). split; [ | reflexivity].
    now apply distinct_In.
  - intros [Hin ->]. exists k. split; [reflexivity | ].
    now apply distinct_In.
Qed.

Lemma totals_get l k :
  dict_get k (totals l) =
  if in_dec str_eq_dec k (map fst l) then Some (sum (key_values k l))
  else None.
Proof.
  unfold totals. rewrite dict_get_map.
  destruct (in_dec str_eq_dec k (distinct (map fst l))) as [H | H];
    destruct (in_dec str_eq_dec k (map fst l)) as [H' | H'];
    try reflexivity; exfalso; rewrite distinct_In in H; contradiction.
Qed.

Lemma key_values_cons k kv l :
  key_values k (kv :: l) =
  if str_eqb (fst kv) k then snd kv :: key_values k l else key_values k l.
Proof. unfold key_values. simpl. now destruct (str_eqb (fst kv) k). Qed.

(** The total of a key does not depend on the order of the pairs. *)
Lemma sum_key_values_perm k l l' :
  Permutation l l' -> sum (key_values k l) = sum (key_values k l').
Proof.
  induction 1 as [|x l l' _ IH|x y l|l l' l'' _ IH1 _ IH2].
  - reflexivity.
  - rewrite !key_values_cons. destruct (str_eqb (fst x) k);
      [rewrite !sum_cons | ]; congruence.
  - rewrite !key_values_cons.
    destruct (str_eqb (fst x) k), (str_eqb (fst y) k);
      rewrite ?sum_cons; lia.
  - congruence.
Qed.

(** The totals add up to the sum of all counts. *)
Lemma sum_append_value k v (d : dict (list Z)) :
  sum (map (fun e => sum (snd e)) (append_value k v d)) =
  sum (map (fun e => sum (snd e)) d) + v.
Proof.
  induction d as [|[k' vs] d IH]; simpl.
  - autorewrite with sums. lia.
  - destruct (str_eqb k k'); simpl; autorewrite with sums; simpl.
    + autorewrite with sums. lia.
    + rewrite IH. lia.
Qed.

Lemma sum_shuffle_function m :
  sum (map (fun e => sum (snd e)) (shuffle_function m)) = sum (map snd m).
Proof.
  induction m as [|[k v] m IH] using rev_ind; [reflexivity | ].
  rewrite shuffle_snoc, sum_append_value, IH, map_app. simpl.
  autorewrite with sums. lia.
Qed.

Lemma sum_totals l : sum (values (totals l)) = sum (map snd l).
Proof.
  rewrite <- sum_shuffle_function, shuffle_function_group.
  unfold values, totals, group. rewrite !map_map. reflexivity.
Qed.

(** ** The worker pool *)

Lemma set_nth_length (A : Type) i (x : A) l :
  length (set_nth i x l) = length l.
Proof.
  revert i. induction l as [|y l IH]; intros [|i]; simpl; auto.
Qed.

Lemma set_nth_same (A : Type) i (x : A) l :
  (i < length l)%nat -> nth_error (set_nth i x l) i = Some x.
Proof.
  revert i. induction l as [|y l IH]; intros [|i]; simpl; intros Hi;
    try lia; [reflexivity | ].
  apply IH. lia.
Qed.

Lemma set_nth_other (A : Type) i j (x : A) l :
  i <> j -> nth_error (set_nth i x l) j = nth_error l j.
Proof.
  revert i j. induction l as [|y l IH]; intros [|i] [|j] Hij; simpl;
    try reflexivity; try congruence.
  apply IH. congruence.
Qed.

Section Pool.

Variables A B : Type.
Variable f : A -> B.
Variable xs : list A.

Lemma run_call_length futures i :
  length (run_call f xs futures i) = length futures.
Proof.
  unfold run_call. destruct (nth_error xs i); [ | reflexivity].
  apply set_nth_length.
Qed.

Lemma run_call_done futures i :
  length futures = length xs -> (i < length xs)%nat ->
  done f xs (run_call f xs futures i) i.
Proof.
  intros Hlen Hi. unfold done, run_call.
  destruct (nth_error xs i) as [x|] eqn:E.
  - exists x. split; [reflexivity | ]. apply set_nth_same. lia.
  - apply nth_error_None in E. lia.
Qed.

Lemma run_call_keeps futures i j :
  done f xs futures j -> done f xs (run_call f xs futures i) j.
Proof.
  intros (x & Hx & Hf). exists x. split; [assumption | ].
  unfold run_call. destruct (nth_error xs i) as [xi|] eqn:E; [ | assumption].
  destruct (Nat.eq_dec i j) as [-> | Hne].
  - rewrite set_nth_same.
    + congruence.
    + apply nth_error_Some. congruence.
  - now rewrite set_nth_other.
Qed.

Lemma run_calls sched : forall futures,
  length futures = length xs ->
  length (fold_left (run_call f xs) sched futures) = length xs /\
  forall j, (j < length xs)%nat -> In j sched \/ done f xs futures j ->
            done f xs (fold_left (run_call f xs) sched futures) j.
Proof.
  induction sched as [|i sched IH]; intros futures Hlen; simpl.
  - split; [assumption | ]. intros j _ [[] | Hd]. exact Hd.
  - destruct (IH (run_call f xs futures i)) as [Hl Hd].
    { now rewrite run_call_length. }
    split; [assumption | ]. intros j Hj [[-> | Hin] | Hdone].
    + apply Hd; [assumption | right]. now apply run_call_done.
    + apply Hd; [assumption | now left].
    + apply Hd; [assumption | right]. now apply run_call_keeps.
Qed.

End Pool.

Lemma results_all_done (A B : Type) (f : A -> B) xs : forall futures,
  length futures = length xs ->
  (forall j, (j < length xs)%nat -> done f xs futures j) ->
  results futures = Some (map f xs).
Proof.
  induction xs as [|x xs IH]; intros [|o futures] Hlen Hd;
    simpl in *; try discriminate; [reflexivity | ].
  destruct (Hd 0%nat) as (x0 & Hx0 & Hf0); [lia | ].
  simpl in Hx0, Hf0. injection Hx0 as <-. injection Hf0 as ->.
  rewrite (IH futures); [reflexivity | lia | ].
  intros j Hj. destruct (Hd (S j)) as (y & Hy & Hfy); [lia | ].
  exists y. split; assumption.
Qed.

(** Whatever the order in which the workers finish, [executor.map] yields
    the results in the order of its input. *)
Lemma pool_map_complete (A B : Type) (f : A -> B) xs sched :
  completes sched (length xs) ->
  pool_map sched f xs = Some (executor_map f xs).
Proof.
  intros Hc. unfold pool_map, run_pool, executor_map.
  destruct (@run_calls A B f xs sched (repeat None (length xs)))
    as [Hlen Hd]; [apply repeat_length | ].
  apply results_all_done; [assumption | ].
  intros j Hj. apply Hd; [assumption | left]. now apply Hc.
Qed.

(** ** The pipeline *)

Section PipelineProperties.

Variable lower : str -> str.

Lemma mapped_keys ws : map fst (map (map_function lower) ws) = map lower ws.
Proof. rewrite map_map. reflexivity. Qed.

Lemma mapped_values ws :
  map snd (map (map_function lower) ws) = repeat 1 (length ws).
Proof. induction ws as [|w ws IH]; simpl; congruence. Qed.

(** Every mapped pair counts one occurrence of its key. *)
Lemma mapped_key_values k ws :
  sum (key_values k (map (map_function lower) ws)) =
  Z.of_nat (count_occ str_eq_dec (map lower ws) k).
Proof.
  induction ws as [|w ws IH]; [reflexivity | ].
  cbn [map]. rewrite key_values_cons. cbn [map_function fst snd count_occ].
  unfold str_eqb. destruct (str_eq_dec (lower w) k).
  - rewrite sum_cons, IH. lia.
  - exact IH.
Qed.

Lemma map_reduce_totals text :
  map_reduce lower text = totals (map (map_function lower) (tokenize text)).
Proof. unfold map_reduce. now rewrite shuffle_reduce_totals. Qed.

(** The pipeline counts the case-folded tokens. *)
Lemma map_reduce_count_tokens text :
  map_reduce lower text = count_tokens (map lower (tokenize text)).
Proof.
  rewrite map_reduce_totals. unfold totals, count_tokens.
  rewrite mapped_keys. apply map_ext. intros k.
  now rewrite mapped_key_values.
Qed.

Lemma map_reduce_wf text : dict_wf (map_reduce lower text).
Proof. rewrite map_reduce_totals. apply totals_wf. Qed.

Lemma map_reduce_get text k :
  dict_get k (map_reduce lower text) =
  if (occurrences lower k text =? 0)%nat then None
  else Some (Z.of_nat (occurrences lower k text)).
Proof.
  rewrite map_reduce_totals, totals_get, mapped_keys, mapped_key_values.
  unfold occurrences.
  destruct (in_dec str_eq_dec k (map lower (tokenize text))) as [Hin | Hnin].
  - apply (count_occ_In str_eq_dec) in Hin.
    destruct (Nat.eqb_spec (count_occ str_eq_dec
                              (map lower (tokenize text)) k) 0);
      [lia | reflexivity].
  - apply (count_occ_not_In str_eq_dec) in Hnin. now rewrite Hnin.
Qed.

(** With both pools completing their calls, the scheduled pipeline returns
    what [map_reduce] returns. *)
Lemma map_reduce_pool_complete s1 s2 text :
  fair lower s1 s2 text ->
  map_reduce_pool lower s1 s2 text = Some (map_reduce lower text).
Proof.
  intros [H1 H2]. unfold map_reduce_pool, map_reduce.
  fold (tokenize text) in *.
  rewrite pool_map_complete by assumption.
  rewrite pool_map_complete by assumption.
  reflexivity.
Qed.

(** C1: every key of the result is bound to the number of its occurrences
    among the case-folded tokens of the text (punctuation stripped, split on
    white space), and the empty text gives the empty mapping. *)
Theorem map_reduce_counts (text k : str) :
  (In k (map fst (map_reduce lower text)) ->
   dict_get k (map_reduce lower text) =
     Some (Z.of_nat (occurrences lower k text))) /\
  map_reduce lower [] = [].
Proof.
  split; [ | reflexivity].
  rewrite map_reduce_get. intros Hin.
  destruct (Nat.eqb_spec (occurrences lower k text) 0) as [E | E];
    [ | reflexivity].
  exfalso. unfold occurrences in E.
  apply (count_occ_not_In str_eq_dec) in E. apply E.
  rewrite map_reduce_totals, totals_keys, mapped_keys, distinct_In in Hin.
  exact Hin.
Qed.

(** C2: the values of the result add up to the number of tokens. *)
Theorem map_reduce_sum (text : str) :
  sum (values (map_reduce lower text)) = Z.of_nat (length (tokenize text)).
Proof.
  rewrite map_reduce_totals, sum_totals, mapped_values. apply sum_ones.
Qed.

(** C4: the mapper pairs the lower-cased token with 1, and the pipeline
    counts the tokens obtained by stripping the punctuation of the raw text,
    splitting, and lower-casing every token, in that order. *)
Theorem map_function_then_count (text w : str) :
  map_function lower w = (lower w, 1) /\
  map_reduce lower text =
    count_tokens (map lower (split (remove_punctuation text))).
Proof. split; [reflexivity | apply map_reduce_count_tokens]. Qed.

(** C8: two runs on the same text, whatever the order in which the workers
    of the two pools finish, both return, and return the same key/value
    pairs. *)
Theorem map_reduce_deterministic (text : str) (s1 s2 s1' s2' : schedule) :
  fair lower s1 s2 text -> fair lower s1' s2' text ->
  exists r r',
    map_reduce_pool lower s1 s2 text = Some r /\
    map_reduce_pool lower s1' s2' text = Some r' /\
    same_items r r'.
Proof.
  intros H H'. exists (map_reduce lower text), (map_reduce lower text).
  rewrite !map_reduce_pool_complete by assumption.
  repeat split; auto.
Qed.

End PipelineProperties.

(** C5: shuffling and reducing a permutation of the mapped pairs gives the
    same (key, total) pairs. *)
Theorem shuffle_reduce_order_independent (l l' : list (str * Z)) :
  Permutation l l' ->
  same_items (map reduce_function (shuffle_function l))
             (map reduce_function (shuffle_function l')) /\
  same_items
    (dict_of_pairs (executor_map reduce_function (shuffle_function l)))
    (dict_of_pairs (executor_map reduce_function (shuffle_function l'))).
Proof.
  intros Hp.
  assert (Hsame : same_items (totals l) (totals l')).
  { intros k v. rewrite !totals_In, (sum_key_values_perm k Hp).
    split; intros [Hin Hv]; (split; [ | assumption]).
    - eapply Permutation_in; [apply Permutation_map, Hp | assumption].
    - eapply Permutation_in;
        [apply Permutation_map, Permutation_sym, Hp | assumption]. }
  assert (Hmap : forall m, map reduce_function (shuffle_function m) = totals m).
  { intros m. rewrite shuffle_function_group. unfold group, totals.
    now rewrite map_map. }
  rewrite !shuffle_reduce_totals, !Hmap. split; assumption.
Qed.

(** ** Ranking *)

Lemma insert_desc_perm x s : Permutation (insert_desc x s) (x :: s).
Proof.
  induction s as [|y s IH]; simpl; [reflexivity | ].
  destruct (snd x <? snd y); [ | reflexivity].
  rewrite IH. apply perm_swap.
Qed.

Lemma sorted_desc_perm l : Permutation (sorted_desc l) l.
Proof.
  induction l as [|x l IH]; simpl; [reflexivity | ].
  rewrite insert_desc_perm. now constructor.
Qed.

Lemma insert_desc_descending x s :
  descending s -> descending (insert_desc x s).
Proof.
  unfold descending. induction 1 as [|y s Hs IH Hy]; simpl.
  - repeat constructor.
  - destruct (Z.ltb_spec (snd x) (snd y)) as [Hlt | Hge].
    + constructor; [assumption | ].
      apply (Permutation_Forall (Permutation_sym (insert_desc_perm x s))).
      constructor; [lia | assumption].
    + constructor; [now constructor | ].
      constructor; [lia | ].
      eapply Forall_impl; [ | exact Hy]. simpl. intros b Hb. lia.
Qed.

Lemma sorted_desc_descending l : descending (sorted_desc l).
Proof.
  induction l as [|x l IH]; simpl; [constructor | ].
  now apply insert_desc_descending.
Qed.

Lemma firstn_In (A : Type) n (x : A) l : In x (firstn n l) -> In x l.
Proof.
  intros H. rewrite <- (firstn_skipn n l). apply in_or_app. now left.
Qed.

Lemma firstn_descending n : forall l, descending l -> descending (firstn n l).
Proof.
  unfold descending. induction n as [|n IH]; intros l Hl; simpl;
    [constructor | ].
  destruct l as [|x l]; [constructor | ].
  apply StronglySorted_inv in Hl. destruct Hl as [Hl Hx].
  constructor; [now apply IH | ].
  rewrite Forall_forall in *. intros b Hb. apply Hx.
  eapply firstn_In. exact Hb.
Qed.

Lemma firstn_NoDup (A : Type) n (l : list A) : NoDup l -> NoDup (firstn n l).
Proof.
  intros H. rewrite <- (firstn_skipn n l) in H.
  now apply NoDup_app_remove_r in H.
Qed.

Lemma slice_to_nil (A : Type) n : slice_to n (@nil A) = [].
Proof. unfold slice_to. destruct (0 <=? n); apply firstn_nil. Qed.

(** C6: for a number of words [n] (a count: [0 <= n]) and a mapping (its
    keys distinct), the top-[n] selection has exactly [min n |mapping|] entries,
    in decreasing order of count, all of them entries of the mapping, with
    no key repeated; with [n] at least the size of the mapping, it is all
    of the mapping's entries. *)
Theorem top_words_spec (word_counts : dict Z) (n : Z) :
  dict_wf word_counts -> 0 <= n ->
  Z.of_nat (length (top_words word_counts n)) =
    Z.min n (Z.of_nat (length word_counts)) /\
  descending (top_words word_counts n) /\
  incl (top_words word_counts n) word_counts /\
  NoDup (map fst (top_words word_counts n)) /\
  (Z.of_nat (length word_counts) <= n ->
   Permutation (top_words word_counts n) word_counts).
Proof.
  intros Hwf Hn. unfold top_words, slice_to.
  destruct (Z.leb_spec 0 n) as [_ | Hneg]; [ | lia].
  assert (Hlen : length (sorted_desc word_counts) = length word_counts)
    by apply Permutation_length, sorted_desc_perm.
  repeat split.
  - rewrite length_firstn, Hlen. lia.
  - apply firstn_descending, sorted_desc_descending.
  - intros x Hx. apply firstn_In in Hx.
    eapply Permutation_in; [apply sorted_desc_perm | exact Hx].
  - rewrite <- firstn_map. apply firstn_NoDup.
    eapply Permutation_NoDup; [ | exact Hwf].
    apply Permutation_map, Permutation_sym, sorted_desc_perm.
  - intros Hall. rewrite firstn_all2 by lia. apply sorted_desc_perm.
Qed.

(** ** The entry point *)

Lemma fetch_failure net u :
  (exists e, fetch net u = inl e) <->
  (exists detail, net u = Fails detail) \/
  (exists status_code text,
      net u = Response status_code text /\ 400 <= status_code < 600).
Proof.
  unfold fetch, raise_for_status. destruct (net u) as [d | st t].
  - split; [intros _; left; now exists d | intros _; eexists; reflexivity].
  - destruct (Z.leb_spec 400 st), (Z.ltb_spec st 600); simpl; split;
      try (intros [e He]; discriminate);
      try (intros _; eexists; reflexivity);
      try (intros _; right; exists st, t; split; [reflexivity | lia]);
      intros [[d Hd] | (st' & t' & [= <- <-] & Hst)];
      try discriminate; lia.
Qed.

(** The chart is drawn in full, or nothing is drawn and [ValueError] is
    raised: the latter exactly when the selection is empty. *)
Lemma visualize_top_words_cases word_counts top_n :
  (top_words word_counts top_n = [] /\
   visualize_top_words word_counts top_n = ([], inl ValueError)) \/
  (top_words word_counts top_n <> [] /\
   snd (visualize_top_words word_counts top_n) = inr tt /\
   In (Plt Show) (trace (visualize_top_words word_counts top_n))).
Proof.
  unfold visualize_top_words.
  destruct (top_words word_counts top_n) as [|x l]; [left | right].
  - split; reflexivity.
  - split; [discriminate | split; [reflexivity | ]].
    cbn. intuition.
Qed.

(** C7, as the code has it: [get_text] returns the fetched text, or, when
    the request or the status check raises a [RequestException] (no
    reply, or a 4xx or 5xx status), logs the error and returns [None]; in
    that case the entry point logs a second error and returns, having made
    exactly one request, run no [map_reduce] and drawn nothing. *)
Theorem retrieval_failure_short_circuits (lower : str -> str)
        (net : str -> reply) :
  ((exists e, fetch net url = inl e) <->
   (exists detail, net url = Fails detail) \/
   (exists status_code text,
       net url = Response status_code text /\ 400 <= status_code < 600)) /\
  (forall text, fetch net url = inr text ->
     get_text net url = ([Get url; Info (Retrieved url)], inr (Some text))) /\
  (forall e, fetch net url = inl e ->
     get_text net url = ([Get url; Error (RetrieveFailed e)], inr None) /\
     main lower net =
       ([Get url; Error (RetrieveFailed e); Error NotExecuted], inr tt) /\
     filter is_get (trace (main lower net)) = [Get url] /\
     filter is_completed (trace (main lower net)) = [] /\
     filter is_plt (trace (main lower net)) = []).
Proof.
  split; [apply fetch_failure | split].
  - intros text H. unfold get_text. now rewrite H.
  - intros e H.
    assert (Hg : get_text net url =
                 ([Get url; Error (RetrieveFailed e)], inr None)).
    { unfold get_text. now rewrite H. }
    assert (Hm : main lower net =
                 ([Get url; Error (RetrieveFailed e); Error NotExecuted],
                  inr tt)).
    { unfold main. now rewrite Hg. }
    rewrite Hm. repeat split; assumption.
Qed.

(** C9: a response with a success status and an empty body takes the same
    branch as a failed retrieval: the retrieval is logged as successful,
    then the failure message is logged, and the run ends with no
    [map_reduce] and no chart, although [map_reduce] of the empty text is
    the empty mapping. *)
Theorem empty_text_is_failure (lower : str -> str) (net : str -> reply) :
  fetch net url = inr [] ->
  get_text net url = ([Get url; Info (Retrieved url)], inr (Some [])) /\
  main lower net =
    ([Get url; Info (Retrieved url); Error NotExecuted], inr tt) /\
  filter is_completed (trace (main lower net)) = [] /\
  filter is_plt (trace (main lower net)) = [] /\
  map_reduce_io lower [] = ([Info Completed], inr []).
Proof.
  intros H.
  assert (Hg : get_text net url =
               ([Get url; Info (Retrieved url)], inr (Some []))).
  { unfold get_text. now rewrite H. }
  assert (Hm : main lower net =
               ([Get url; Info (Retrieved url); Error NotExecuted], inr tt)).
  { unfold main. now rewrite Hg. }
  rewrite Hm. repeat split; assumption.
Qed.

(** C10: on the empty mapping, whatever [top_n], [visualize_top_words]
    raises [ValueError] at the unpacking, before any matplotlib call. *)
Theorem visualize_empty_raises (top_n : Z) :
  visualize_top_words [] top_n = ([], inl ValueError).
Proof.
  unfold visualize_top_words, top_words. simpl sorted_desc.
  now rewrite slice_to_nil.
Qed.

(** ** The pipeline on concrete texts (ASCII, so [str.lower] is
    [ascii_lower]) *)

Example tokenize_the_cat :
  tokenize the_cat =
  [py "The"; py "cat"; py "sat"; py "The"; py "cat"; py "ran"].
Proof. reflexivity. Qed.

Example map_reduce_the_cat :
  map_reduce ascii_lower the_cat =
  [(py "the", 2); (py "cat", 2); (py "sat", 1); (py "ran", 1)].
Proof. reflexivity. Qed.

Example top_words_the_cat :
  top_words (map_reduce ascii_lower the_cat) 2 =
  [(py "the", 2); (py "cat", 2)].
Proof. reflexivity. Qed.

Lemma map_reduce_counts_witness :
  In (py "the") (map fst (map_reduce ascii_lower the_cat)) /\
  dict_get (py "the") (map_reduce ascii_lower the_cat) =
    Some (Z.of_nat (occurrences ascii_lower (py "the") the_cat)).
Proof.
  assert (H : In (py "the") (map fst (map_reduce ascii_lower the_cat)))
    by (left; reflexivity).
  split; [exact H | ].
  exact (proj1 (map_reduce_counts ascii_lower the_cat (py "the")) H).
Defined.

Lemma tokenize_separator_run_witness :
  separator_run (py ", ") /\
  Forall (fun c => isspace c = false) (py "don't") /\
  tokenize (py "a" ++ py ", " ++ py "b") =
    tokenize (py "a") ++ tokenize (py "b") /\
  tokenize (py "don't") = [py "dont"].
Proof.
  assert (H : separator_run (py ", ")).
  { constructor; [left; reflexivity | ].
    constructor; [right; reflexivity | constructor]. }
  assert (Hw : Forall (fun c => isspace c = false) (py "don't"))
    by (repeat constructor).
  split; [exact H | split; [exact Hw | split]].
  - exact (proj1 (proj2 (proj2 (tokenize_separator_run
                                  [] (py "a") (py "b") (py "don't") H)))).
  - exact (proj2 (proj2 (proj2 (tokenize_separator_run
                                  [] (py "a") (py "b") (py "don't") H)))
                 Hw).
Defined.

(** C3 as stated fails on a run of punctuation alone: it is deleted, and
    the words on its two sides become one token. *)
Lemma punctuation_run_joins_words :
  separator_run (py ",,") /\
  tokenize (py "a" ++ py ",," ++ py "b") = [py "ab"] /\
  tokenize (py "a" ++ py ",," ++ py "b") <>
    tokenize (py "a") ++ tokenize (py "b").
Proof.
  split; [ | split].
  - repeat (constructor; [left; reflexivity | ]). constructor.
  - reflexivity.
  - discriminate.
Qed.

Lemma shuffle_reduce_order_independent_witness :
  Permutation [(py "a", 1); (py "b", 1); (py "a", 1)]
              [(py "b", 1); (py "a", 1); (py "a", 1)] /\
  same_items
    (map reduce_function
         (shuffle_function [(py "a", 1); (py "b", 1); (py "a", 1)]))
    (map reduce_function
         (shuffle_function [(py "b", 1); (py "a", 1); (py "a", 1)])).
Proof.
  assert (H : Permutation [(py "a", 1); (py "b", 1); (py "a", 1)]
                          [(py "b", 1); (py "a", 1); (py "a", 1)])
    by apply perm_swap.
  split; [exact H | ].
  exact (proj1 (shuffle_reduce_order_independent H)).
Defined.

Lemma three_words_wf : dict_wf three_words.
Proof.
  unfold dict_wf, three_words. simpl.
  repeat constructor; simpl; intuition discriminate.
Defined.

Lemma top_words_spec_witness :
  Z.of_nat (length (top_words three_words 2)) =
    Z.min 2 (Z.of_nat (length three_words)) /\
  descending (top_words three_words 2) /\
  incl (top_words three_words 2) three_words /\
  NoDup (map fst (top_words three_words 2)) /\
  (Z.of_nat (length three_words) <= 2 ->
   Permutation (top_words three_words 2) three_words).
Proof.
  apply (top_words_spec (n := 2) three_words_wf). lia.
Defined.

(** A negative [top_n] is no number of words: the slice then drops the
    last [-top_n] entries of the ranking. *)
Lemma top_words_negative :
  dict_wf three_words /\
  top_words three_words (-1) = [(py "b", 3); (py "c", 2)] /\
  Z.of_nat (length (top_words three_words (-1))) <>
    Z.min (-1) (Z.of_nat (length three_words)).
Proof.
  split; [exact three_words_wf | split]; [reflexivity | ].
  vm_compute. discriminate.
Qed.

Lemma retrieval_failure_short_circuits_witness :
  fetch not_found url = inl (HTTPError 404) /\
  main ascii_lower not_found =
    ([Get url; Error (RetrieveFailed (HTTPError 404)); Error NotExecuted],
     inr tt).
Proof.
  split; [reflexivity | ].
  exact (proj1 (proj2 (proj2 (proj2 (retrieval_failure_short_circuits
                                       ascii_lower not_found))
                             (HTTPError 404) eq_refl))).
Defined.

(** C7 as stated fails: retrieval is not the only way the run fails. A
    text of white space only is retrieved, counted to the empty mapping,
    and the chart raises. *)
Lemma blank_text_raises :
  fetch blank_body url = inr (py " ") /\
  main ascii_lower blank_body =
    ([Get url; Info (Retrieved url); Info Completed], inl ValueError).
Proof. split; reflexivity. Qed.

Lemma map_reduce_deterministic_witness :
  exists r r',
    map_reduce_pool ascii_lower [5; 4; 3; 2; 1; 0]%nat [3; 1; 0; 2]%nat
                    the_cat = Some r /\
    map_reduce_pool ascii_lower [0; 1; 2; 3; 4; 5]%nat [0; 1; 2; 3]%nat
                    the_cat = Some r' /\
    same_items r r'.
Proof.
  apply map_reduce_deterministic;
    (split; intros i Hi; vm_compute in Hi; simpl; lia).
Defined.

Lemma empty_text_is_failure_witness :
  fetch empty_body url = inr [] /\
  main ascii_lower empty_body =
    ([Get url; Info (Retrieved url); Error NotExecuted], inr tt).
Proof.
  split; [reflexivity | ].
  exact (proj1 (proj2 (empty_text_is_failure ascii_lower empty_body eq_refl))).
Defined.

(** * Further properties of the stages *)

(** ** Punctuation removal *)

Lemma filter_twice (A : Type) (p : A -> bool) l :
  filter p (filter p l) = filter p l.
Proof.
  induction l as [|x l IH]; simpl; [reflexivity | ].
  destruct (p x) eqn:E; simpl; [rewrite E | ]; congruence.
Qed.

Lemma filter_all (A : Type) (p : A -> bool) l :
  Forall (fun x => p x = true) l -> filter p l = l.
Proof.
  induction 1 as [|x l Hx _ IH]; simpl; [reflexivity | ].
  rewrite Hx. congruence.
Qed.

Lemma filter_none (A : Type) (p : A -> bool) l :
  filter p l = [] <-> Forall (fun x => p x = false) l.
Proof.
  induction l as [|x l IH]; simpl.
  - split; constructor.
  - destruct (p x) eqn:E; split.
    + discriminate.
    + intros H. inversion H; congruence.
    + intros H. constructor; [assumption | now apply IH].
    + intros H. inversion H. now apply IH.
Qed.

(** X1: removing punctuation twice is removing it once; the result holds
    no punctuation character, is never longer than the text, and a text
    without punctuation is returned unchanged. *)
Theorem remove_punctuation_idempotent (text : str) :
  remove_punctuation (remove_punctuation text) = remove_punctuation text /\
  Forall (fun c => is_punctuation c = false) (remove_punctuation text) /\
  (length (remove_punctuation text) <= length text)%nat /\
  (Forall (fun c => is_punctuation c = false) text ->
   remove_punctuation text = text).
Proof.
  repeat split.
  - apply filter_twice.
  - apply Forall_forall. intros c Hc.
    now apply remove_punctuation_In in Hc.
  - apply filter_length_le.
  - intros H. apply filter_all.
    eapply Forall_impl; [ | exact H]. simpl. intros c Hc. now rewrite Hc.
Qed.

(** ** Shuffle *)

Lemma key_values_present k l : In k (map fst l) -> key_values k l <> [].
Proof.
  induction l as [|[k' v] l IH]; simpl; [contradiction | ].
  rewrite key_values_cons. simpl. intros [-> | Hin].
  - rewrite str_eqb_refl. discriminate.
  - destruct (str_eqb k' k); [discriminate | now apply IH].
Qed.

Lemma append_value_size k v (d : dict (list Z)) :
  length (concat (map snd (append_value k v d))) =
  S (length (concat (map snd d))).
Proof.
  induction d as [|[k' vs] d IH]; simpl; [reflexivity | ].
  destruct (str_eqb k k'); simpl; rewrite !length_app.
  - simpl. lia.
  - rewrite IH. lia.
Qed.

(** X2: the shuffle has one group per distinct key, in the order in which
    the keys first occur; the group of a key holds the counts mapped under
    that key, in their order, and is never empty; no count is lost or
    duplicated. *)
Theorem shuffle_function_groups (l : list (str * Z)) :
  map fst (shuffle_function l) = distinct (map fst l) /\
  NoDup (map fst (shuffle_function l)) /\
  (forall k vs, In (k, vs) (shuffle_function l) ->
     vs = key_values k l /\ vs <> []) /\
  length (concat (map snd (shuffle_function l))) = length l.
Proof.
  assert (Hkeys : map fst (shuffle_function l) = distinct (map fst l)).
  { rewrite shuffle_function_group. unfold group. rewrite map_map. simpl.
    apply map_id. }
  split; [exact Hkeys | split; [ | split]].
  - rewrite Hkeys. apply distinct_NoDup.
  - intros k vs Hin. rewrite shuffle_function_group in Hin.
    unfold group in Hin. apply in_map_iff in Hin.
    destruct Hin as (k' & [= Hk' Hvs] & Hk). subst k' vs.
    split; [reflexivity | ].
    apply key_values_present. now apply distinct_In.
  - induction l as [|kv l IH] using rev_ind; [reflexivity | ].
    rewrite shuffle_snoc, append_value_size, length_app. simpl.
    rewrite IH; [lia | ].
    rewrite shuffle_function_group. unfold group. rewrite map_map. simpl.
    apply map_id.
Qed.

(** X3: shuffling and reducing any sequence of (key, count) pairs, of
    whatever counts, conserves the sum of the counts. *)
Theorem shuffle_reduce_conserves_sum (l : list (str * Z)) :
  sum (values (dict_of_pairs
                 (executor_map reduce_function (shuffle_function l)))) =
  sum (map snd l).
Proof. rewrite shuffle_reduce_totals. apply sum_totals. Qed.

(** ** The pipeline *)

Lemma tokenize_app_space u c v :
  isspace c = true -> tokenize (u ++ c :: v) = tokenize u ++ tokenize v.
Proof.
  intros Hc. unfold tokenize, split.
  rewrite remove_punctuation_app. unfold remove_punctuation at 2. simpl.
  rewrite (space_not_punctuation _ Hc). simpl.
  now apply split_from_app_space.
Qed.

(** A text has no token exactly when it is made of punctuation and white
    space only. *)
Lemma tokenize_empty text : tokenize text = [] <-> separator_run text.
Proof.
  assert (Hcat : concat (tokenize text) =
                 filter (fun c => negb (isspace c)) (remove_punctuation text)).
  { unfold tokenize, split. now rewrite concat_split_from by constructor. }
  split.
  - intros H. rewrite H in Hcat. simpl in Hcat. symmetry in Hcat.
    apply filter_none in Hcat. unfold separator_run.
    rewrite Forall_forall in *. intros c Hc.
    destruct (is_punctuation c) eqn:E; [now left | right].
    assert (Hin : In c (remove_punctuation text))
      by now apply remove_punctuation_In.
    apply Hcat in Hin. now apply negb_false_iff in Hin.
  - intros H. assert (Hnil : concat (tokenize text) = []).
    { rewrite Hcat. apply filter_none. apply Forall_forall. intros c Hc.
      apply negb_false_iff.
      assert (Hs := separator_run_spaces H). rewrite Forall_forall in Hs.
      now apply Hs. }
    assert (Hne := split_from_nonempty (remove_punctuation text) []).
    fold (split (remove_punctuation text)) in Hne.
    fold (tokenize text) in Hne.
    destruct (tokenize text) as [|w ws]; [reflexivity | ].
    inversion Hne as [|? ? Hw _]; subst. simpl in Hnil.
    destruct w; [congruence | discriminate].
Qed.

Section PipelineFurther.

Variable lower : str -> str.

Lemma map_reduce_keys text :
  map fst (map_reduce lower text) = distinct (map lower (tokenize text)).
Proof. now rewrite map_reduce_totals, totals_keys, mapped_keys. Qed.

Lemma map_reduce_nil_iff text :
  map_reduce lower text = [] <-> separator_run text.
Proof.
  rewrite <- tokenize_empty. split.
  - intros H. apply (f_equal (map fst)) in H.
    rewrite map_reduce_keys in H. simpl in H.
    destruct (tokenize text) as [|w ws]; [reflexivity | discriminate].
  - intros H. rewrite map_reduce_count_tokens, H. reflexivity.
Qed.

Lemma count_of_map_reduce k text :
  count_of k (map_reduce lower text) = Z.of_nat (occurrences lower k text).
Proof.
  unfold count_of. rewrite map_reduce_get.
  destruct (Nat.eqb_spec (occurrences lower k text) 0) as [E | E];
    [now rewrite E | reflexivity].
Qed.

(** X4: every entry of the result has as key the lower-cased form of a
    token of the text, and as value a count between 1 and the number of
    tokens; conversely the lower-cased form of every token is a key, and no
    key occurs twice. *)
Theorem map_reduce_entries (text k : str) (v : Z) :
  (In (k, v) (map_reduce lower text) ->
   (exists w, In w (tokenize text) /\ k = lower w) /\
   1 <= v <= Z.of_nat (length (tokenize text))) /\
  (forall w, In w (tokenize text) ->
     In (lower w) (map fst (map_reduce lower text))) /\
  NoDup (map fst (map_reduce lower text)).
Proof.
  split; [ | split].
  - intros Hin.
    assert (Hk : In k (map lower (tokenize text))).
    { rewrite <- distinct_In, <- map_reduce_keys.
      apply (in_map fst) in Hin. exact Hin. }
    apply (dict_get_In _ _ (map_reduce_wf lower text)) in Hin.
    rewrite map_reduce_get in Hin. split.
    + apply in_map_iff in Hk. destruct Hk as (w & Hw & Hin').
      exists w. split; [assumption | congruence].
    + assert (Hb := count_occ_bound str_eq_dec k (map lower (tokenize text))).
      rewrite length_map in Hb. fold (occurrences lower k text) in Hb.
      destruct (Nat.eqb_spec (occurrences lower k text) 0) as [E | E];
        [discriminate | ].
      injection Hin as <-. lia.
  - intros w Hw. rewrite map_reduce_keys. apply distinct_In.
    now apply in_map.
  - apply map_reduce_wf.
Qed.

(** X5: the result is empty exactly for a text made of punctuation and
    white space only (the empty text included). *)
Theorem map_reduce_empty_iff (text : str) :
  map_reduce lower text = [] <-> separator_run text.
Proof. apply map_reduce_nil_iff. Qed.

(** X6: counting is additive over two texts joined by a white-space
    character: the count of every word in the joined text is the sum of
    its counts in the two texts. *)
Theorem map_reduce_additive (u v : str) (c : char) (k : str) :
  isspace c = true ->
  count_of k (map_reduce lower (u ++ c :: v)) =
  count_of k (map_reduce lower u) + count_of k (map_reduce lower v).
Proof.
  intros Hc. rewrite !count_of_map_reduce. unfold occurrences.
  rewrite (@tokenize_app_space u c v Hc), map_app, count_occ_app. lia.
Qed.

(** X7: punctuation never affects the counts: a run of punctuation
    inserted anywhere in the text leaves the result unchanged, and so does
    stripping the punctuation beforehand. *)
Theorem map_reduce_ignores_punctuation (u r v : str) :
  Forall (fun c => is_punctuation c = true) r ->
  map_reduce lower (u ++ r ++ v) = map_reduce lower (u ++ v) /\
  map_reduce lower (remove_punctuation u) = map_reduce lower u.
Proof.
  intros Hr. unfold map_reduce. split.
  - rewrite !remove_punctuation_app.
    assert (Hnil : remove_punctuation r = []).
    { apply filter_none. eapply Forall_impl; [ | exact Hr].
      simpl. intros c Hc. now rewrite Hc. }
    now rewrite Hnil.
  - unfold remove_punctuation. now rewrite filter_twice.
Qed.

(** X8: when lower-casing is idempotent, every key of the result is its
    own lower-cased form. *)
Theorem map_reduce_keys_lowered (text k : str) :
  (forall w, lower (lower w) = lower w) ->
  In k (map fst (map_reduce lower text)) -> lower k = k.
Proof.
  intros Hidem Hin. rewrite map_reduce_keys, distinct_In in Hin.
  apply in_map_iff in Hin. destruct Hin as (w & <- & _). apply Hidem.
Qed.

End PipelineFurther.

(** ** Ranking *)

Lemma insert_desc_filter c x s :
  filter (fun e : str * Z => snd e =? c) (insert_desc x s) =
  filter (fun e : str * Z => snd e =? c) (x :: s).
Proof.
  induction s as [|y s IH]; [reflexivity | ].
  cbn [insert_desc]. destruct (Z.ltb_spec (snd x) (snd y)) as [Hlt | Hge];
    [ | reflexivity].
  cbn [filter] in *. rewrite IH.
  destruct (Z.eqb_spec (snd x) c), (Z.eqb_spec (snd y) c);
    try reflexivity. lia.
Qed.

(** X9: the ranking is stable: the entries of any one count come out in
    the order they have in the mapping. *)
Theorem sorted_desc_stable (c : Z) (items : list (str * Z)) :
  filter (fun e => snd e =? c) (sorted_desc items) =
  filter (fun e => snd e =? c) items.
Proof.
  induction items as [|x items IH]; [reflexivity | ].
  cbn [sorted_desc fold_right]. fold (sorted_desc items).
  rewrite insert_desc_filter. cbn [filter]. now rewrite IH.
Qed.

Lemma slice_to_length (A : Type) n (l : list A) :
  Z.of_nat (length (slice_to n l)) =
  if 0 <=? n then Z.min n (Z.of_nat (length l))
  else Z.max 0 (Z.of_nat (length l) + n).
Proof.
  unfold slice_to. destruct (Z.leb_spec 0 n); cbv iota; rewrite length_firstn; lia.
Qed.

Lemma sorted_desc_length l : length (sorted_desc l) = length l.
Proof. apply Permutation_length, sorted_desc_perm. Qed.

Lemma top_words_length word_counts n :
  Z.of_nat (length (top_words word_counts n)) =
  if 0 <=? n then Z.min n (Z.of_nat (length word_counts))
  else Z.max 0 (Z.of_nat (length word_counts) + n).
Proof.
  unfold top_words. now rewrite slice_to_length, sorted_desc_length.
Qed.

Lemma top_words_nil_iff word_counts n :
  top_words word_counts n = [] <->
  word_counts = [] \/ n = 0 \/
  (n < 0 /\ Z.of_nat (length word_counts) <= - n).
Proof.
  rewrite <- length_zero_iff_nil.
  assert (Hlen := top_words_length word_counts n).
  revert Hlen. destruct (Z.leb_spec 0 n) as [Hn | Hn]; intros Hlen.
  - split.
    + intros H. destruct word_counts as [|x d]; [now left | right].
      rewrite H in Hlen. cbn [length] in *. lia.
    + intros [-> | [-> | [Hlt _]]]; cbn [length] in *; lia.
  - split.
    + intros H. destruct word_counts as [|x d]; [now left | right; right].
      rewrite H in Hlen. cbn [length] in *. lia.
    + intros [-> | [-> | [_ Hl]]]; cbn [length] in *; lia.
Qed.

(** X10: for every [top_n], negative ones included, the selection is a
    prefix of the full ranking; its length is [min top_n |mapping|] for
    [top_n >= 0] and [max 0 (|mapping| + top_n)] for [top_n < 0]. *)
Theorem top_words_prefix (word_counts : dict Z) (top_n : Z) :
  (exists rest, sorted_desc word_counts = top_words word_counts top_n ++ rest)
  /\
  Z.of_nat (length (top_words word_counts top_n)) =
    if 0 <=? top_n then Z.min top_n (Z.of_nat (length word_counts))
    else Z.max 0 (Z.of_nat (length word_counts) + top_n).
Proof.
  split; [ | apply top_words_length].
  unfold top_words, slice_to. destruct (0 <=? top_n);
    eexists; symmetry; apply firstn_skipn.
Qed.

(** X11: with a non-empty mapping and [top_n >= 1], the first selected
    entry is an entry of the mapping whose count no other entry exceeds. *)
Theorem top_words_head_max (word_counts : dict Z) (top_n : Z) :
  word_counts <> [] -> 1 <= top_n ->
  exists k v rest,
    top_words word_counts top_n = (k, v) :: rest /\
    In (k, v) word_counts /\
    forall k' v', In (k', v') word_counts -> v' <= v.
Proof.
  intros Hne Hn.
  assert (Hp := sorted_desc_perm word_counts).
  assert (Hd := sorted_desc_descending word_counts).
  unfold top_words, slice_to. destruct (Z.leb_spec 0 top_n); [ | lia].
  destruct (sorted_desc word_counts) as [|[k v] s] eqn:E.
  - apply Permutation_nil in Hp. contradiction.
  - destruct (Z.to_nat top_n) as [|m] eqn:Em; [lia | ].
    exists k, v, (firstn m s). split; [reflexivity | split].
    + eapply Permutation_in; [exact Hp | now left].
    + intros k' v' Hin.
      apply (Permutation_in _ (Permutation_sym Hp)) in Hin.
      apply StronglySorted_inv in Hd. destruct Hd as [_ Hall].
      destruct Hin as [[= <- <-] | Hin]; [lia | ].
      rewrite Forall_forall in Hall. apply (Hall _ Hin).
Qed.

(** X12: a smaller selection is the beginning of a larger one. *)
Theorem top_words_monotone (word_counts : dict Z) (n m : Z) :
  0 <= n <= m ->
  top_words word_counts n = firstn (Z.to_nat n) (top_words word_counts m).
Proof.
  intros Hnm. unfold top_words, slice_to.
  destruct (Z.leb_spec 0 n), (Z.leb_spec 0 m); try lia.
  rewrite firstn_firstn. f_equal. lia.
Qed.

(** ** Visualization *)

Lemma visualize_top_words_eq word_counts top_n :
  visualize_top_words word_counts top_n =
  match top_words word_counts top_n with
  | [] => ([], inl ValueError)
  | _ :: _ =>
      (chart (map fst (top_words word_counts top_n))
             (map snd (top_words word_counts top_n)) top_n, inr tt)
  end.
Proof.
  unfold visualize_top_words.
  destruct (top_words word_counts top_n); reflexivity.
Qed.


Lemma combine_fst_snd (A B : Type) (l : list (A * B)) :
  combine (map fst l) (map snd l) = l.
Proof. induction l as [|[a b] l IH]; simpl; congruence. Qed.



(** ** The entry point *)

Section EntryPoint.

Variable lower : str -> str.
Variable net : str -> reply.

Lemma get_text_eq :
  get_text net url =
  match fetch net url with
  | inr text => ([Get url; Info (Retrieved url)], inr (Some text))
  | inl e => ([Get url; Error (RetrieveFailed e)], inr None)
  end.
Proof. unfold get_text. destruct (fetch net url); reflexivity. Qed.

(** The run on a retrieved non-empty text: the request, the two log
    lines, then whatever the chart does. *)
Lemma main_on_text text :
  fetch net url = inr text -> text <> [] ->
  main lower net =
  ([Get url; Info (Retrieved url); Info Completed]
     ++ trace (visualize_top_words (map_reduce lower text) 11),
   snd (visualize_top_words (map_reduce lower text) 11)).
Proof.
  intros H Hne. unfold main. rewrite get_text_eq, H.
  destruct text as [|c rest]; [congruence | ].
  cbv beta iota zeta delta [bind emit ret map_reduce_io trace fst snd app].
  destruct (visualize_top_words (map_reduce lower (c :: rest)) 11)
    as [tr r].
  reflexivity.
Qed.

Lemma main_no_text :
  (forall text, fetch net url = inr text -> text = []) ->
  exists m, is_get m = false /\
            main lower net = ([Get url; m; Error NotExecuted], inr tt).
Proof.
  intros H. unfold main. rewrite get_text_eq.
  destruct (fetch net url) as [e | text] eqn:E.
  - eexists. split; [ | reflexivity]. reflexivity.
  - rewrite (H text eq_refl). eexists. split; [ | reflexivity]. reflexivity.
Qed.

(** X15: the run ends with an uncaught exception exactly when the request
    succeeds with a non-empty text made of punctuation and white space
    only; the exception is the [ValueError] of the chart. *)
Theorem main_raises_iff :
  ((exists e, snd (main lower net) = inl e) <->
   (exists text, fetch net url = inr text /\ text <> [] /\
                 separator_run text)) /\
  (forall e, snd (main lower net) = inl e -> e = ValueError).
Proof.
  destruct (fetch net url) as [e | text] eqn:E.
  - destruct main_no_text as (m & Hget & Hm); [intros t Ht; congruence | ].
    rewrite Hm. simpl. split; [split | ].
    + intros [e' He']. discriminate.
    + intros (t & Ht & _). discriminate.
    + discriminate.
  - destruct text as [|c rest].
    + destruct main_no_text as (m & Hget & Hm); [intros t Ht; congruence | ].
      rewrite Hm. simpl. split; [split | ].
      * intros [e' He']. discriminate.
      * intros (t & [= <-] & Hne & _). congruence.
      * discriminate.
    + rewrite (main_on_text E) by discriminate. cbn [snd].
      rewrite visualize_top_words_eq.
      destruct (top_words (map_reduce lower (c :: rest)) 11) as [|x l] eqn:Etw.
      * apply top_words_nil_iff in Etw.
        destruct Etw as [Hnil | [H0 | [Hneg _]]]; try lia.
        apply map_reduce_nil_iff in Hnil. split; [split | ].
        -- intros _. exists (c :: rest). repeat split; [discriminate | ].
           exact Hnil.
        -- intros _. now exists ValueError.
        -- now intros e [= <-].
      * split; [split | ].
        -- intros [e He]. discriminate.
        -- intros (t & [= <-] & _ & Hsep). exfalso.
           apply (map_reduce_nil_iff lower) in Hsep.
           assert (Hnil : top_words (map_reduce lower (c :: rest)) 11 = [])
             by (apply top_words_nil_iff; now left).
           congruence.
        -- discriminate.
Qed.

(** X16: whatever the network answers and whatever the run does next,
    exactly one request is made, and it is the first event. *)
Theorem main_one_request :
  filter is_get (trace (main lower net)) = [Get url] /\
  exists rest, trace (main lower net) = Get url :: rest.
Proof.
  destruct (fetch net url) as [e | text] eqn:E.
  - destruct main_no_text as (m & Hget & Hm); [intros t Ht; congruence | ].
    rewrite Hm. unfold trace. cbn [fst filter is_get]. rewrite Hget.
    split; [reflexivity | eauto].
  - destruct text as [|c rest].
    + destruct main_no_text as (m & Hget & Hm); [intros t Ht; congruence | ].
      rewrite Hm. unfold trace. cbn [fst filter is_get]. rewrite Hget.
      split; [reflexivity | eauto].
    + rewrite (main_on_text E) by discriminate.
      rewrite visualize_top_words_eq.
      destruct (top_words (map_reduce lower (c :: rest)) 11);
        (split; [reflexivity | eexists; reflexivity]).
Qed.

(** X17: on a retrieved text with at least one token the run returns
    normally after drawing one chart of the [min 11 |result|] most frequent
    words of [map_reduce]. *)
Theorem main_draws (text : str) :
  fetch net url = inr text -> ~ separator_run text ->
  exists words counts,
    main lower net =
      ([Get url; Info (Retrieved url); Info Completed]
         ++ chart words counts 11, inr tt) /\
    combine words counts = top_words (map_reduce lower text) 11 /\
    Z.of_nat (length words) =
      Z.min 11 (Z.of_nat (length (map_reduce lower text))).
Proof.
  intros E Hsep.
  assert (Hne : text <> []) by (intros ->; apply Hsep; constructor).
  rewrite (main_on_text E Hne), visualize_top_words_eq.
  assert (Hlen := top_words_length (map_reduce lower text) 11).
  destruct (top_words (map_reduce lower text) 11) as [|x l] eqn:Etw.
  - exfalso. apply top_words_nil_iff in Etw.
    destruct Etw as [Hnil | [H0 | [Hneg _]]]; try lia.
    now apply map_reduce_nil_iff in Hnil.
  - exists (map fst (x :: l)), (map snd (x :: l)). split; [reflexivity | ].
    split; [apply combine_fst_snd | ].
    rewrite length_map. exact Hlen.
Qed.

End EntryPoint.

(** ** The further properties on concrete inputs *)

Lemma ascii_lower_idempotent w : ascii_lower (ascii_lower w) = ascii_lower w.
Proof.
  unfold ascii_lower. rewrite map_map. apply map_ext. intros c.
  unfold ascii_lower_char.
  destruct ((65 <=? c) && (c <=? 90))%N eqn:E; [ | now rewrite E].
  apply andb_true_iff in E. destruct E as [E1 E2].
  apply N.leb_le in E1, E2.
  assert (H : (c + 32 <=? 90)%N = false) by (apply N.leb_gt; lia).
  now rewrite H, andb_false_r.
Qed.

Lemma the_cat_has_tokens : ~ separator_run the_cat.
Proof.
  intros H. inversion H as [|c r Hc _]; subst.
  destruct Hc; discriminate.
Defined.

Lemma remove_punctuation_idempotent_witness :
  Forall (fun c => is_punctuation c = false) (py "ab c") /\
  remove_punctuation (py "ab c") = py "ab c".
Proof.
  assert (H : Forall (fun c => is_punctuation c = false) (py "ab c"))
    by (repeat constructor).
  split; [exact H | ].
  exact (proj2 (proj2 (proj2 (remove_punctuation_idempotent (py "ab c"))))
               H).
Defined.

Lemma shuffle_function_groups_witness :
  In (py "a", [1; 1]) (shuffle_function a_b_a) /\
  [1; 1] = key_values (py "a") a_b_a /\ [1; 1] <> @nil Z.
Proof.
  assert (H : In (py "a", [1; 1]) (shuffle_function a_b_a))
    by (left; reflexivity).
  split; [exact H | ].
  exact (proj1 (proj2 (proj2 (shuffle_function_groups a_b_a))) _ _ H).
Defined.

Lemma map_reduce_entries_witness :
  In (py "cat", 2) (map_reduce ascii_lower the_cat) /\
  (exists w, In w (tokenize the_cat) /\ py "cat" = ascii_lower w) /\
  1 <= 2 <= Z.of_nat (length (tokenize the_cat)).
Proof.
  assert (H : In (py "cat", 2) (map_reduce ascii_lower the_cat))
    by (right; left; reflexivity).
  split; [exact H | ].
  exact (proj1 (map_reduce_entries ascii_lower the_cat (py "cat") 2) H).
Defined.

Lemma map_reduce_empty_iff_witness :
  separator_run (py " ,") /\ map_reduce ascii_lower (py " ,") = [].
Proof.
  assert (H : separator_run (py " ,")).
  { constructor; [right; reflexivity | ].
    constructor; [left; reflexivity | constructor]. }
  split; [exact H | ].
  exact (proj2 (map_reduce_empty_iff ascii_lower (py " ,")) H).
Defined.

Lemma map_reduce_additive_witness :
  isspace 10%N = true /\
  count_of (py "cat") (map_reduce ascii_lower (py "The cat." ++ 10%N :: py "A Cat!")) =
  count_of (py "cat") (map_reduce ascii_lower (py "The cat.")) +
  count_of (py "cat") (map_reduce ascii_lower (py "A Cat!")).
Proof.
  split; [reflexivity | ].
  apply (map_reduce_additive ascii_lower). reflexivity.
Defined.

Lemma map_reduce_ignores_punctuation_witness :
  Forall (fun c => is_punctuation c = true) (py "'") /\
  map_reduce ascii_lower (py "don" ++ py "'" ++ py "t") =
  map_reduce ascii_lower (py "don" ++ py "t").
Proof.
  assert (H : Forall (fun c => is_punctuation c = true) (py "'"))
    by (repeat constructor).
  split; [exact H | ].
  exact (proj1 (map_reduce_ignores_punctuation ascii_lower
                  (py "don") (py "t") H)).
Defined.

Lemma map_reduce_keys_lowered_witness :
  In (py "the") (map fst (map_reduce ascii_lower the_cat)) /\
  ascii_lower (py "the") = py "the".
Proof.
  assert (H : In (py "the") (map fst (map_reduce ascii_lower the_cat)))
    by (left; reflexivity).
  split; [exact H | ].
  exact (@map_reduce_keys_lowered ascii_lower the_cat (py "the")
           ascii_lower_idempotent H).
Defined.

Lemma top_words_head_max_witness :
  three_words <> [] /\ 1 <= 2 /\
  exists k v rest,
    top_words three_words 2 = (k, v) :: rest /\
    In (k, v) three_words /\
    forall k' v', In (k', v') three_words -> v' <= v.
Proof.
  assert (H : three_words <> []) by discriminate.
  assert (H' : 1 <= 2) by lia.
  split; [exact H | split; [exact H' | ]].
  exact (top_words_head_max H H').
Defined.

Lemma top_words_monotone_witness :
  0 <= 1 <= 2 /\
  top_words three_words 1 = firstn (Z.to_nat 1) (top_words three_words 2).
Proof.
  assert (H : 0 <= 1 <= 2) by lia.
  split; [exact H | ]. exact (top_words_monotone three_words H).
Defined.




Lemma main_raises_iff_witness :
  exists e, snd (main ascii_lower blank_body) = inl e.
Proof.
  apply (proj1 (main_raises_iff ascii_lower blank_body)).
  exists (py " "). split; [reflexivity | split; [discriminate | ]].
  constructor; [right; reflexivity | constructor].
Defined.

Lemma main_draws_witness :
  exists words counts,
    main ascii_lower cat_body =
      ([Get url; Info (Retrieved url); Info Completed]
         ++ chart words counts 11, inr tt) /\
    combine words counts = top_words (map_reduce ascii_lower the_cat) 11 /\
    Z.of_nat (length words) =
      Z.min 11 (Z.of_nat (length (map_reduce ascii_lower the_cat))).
Proof.
  apply (@main_draws ascii_lower cat_body the_cat);
    [reflexivity | exact the_cat_has_tokens].
Defined.

(** X18: the order of the words in the text does not matter: two texts
    whose tokens are a permutation of one another give the same key/value
    pairs. *)
Theorem map_reduce_word_order (lower : str -> str) (text text' : str) :
  Permutation (tokenize text) (tokenize text') ->
  same_items (map_reduce lower text) (map_reduce lower text').
Proof.
  intros Hp k v.
  rewrite <- !(dict_get_In _ _ (map_reduce_wf lower _)), !map_reduce_get.
  unfold occurrences.
  assert (Hc : count_occ str_eq_dec (map lower (tokenize text)) k =
               count_occ str_eq_dec (map lower (tokenize text')) k).
  { apply Permutation_count_occ. now apply Permutation_map. }
  now rewrite Hc.
Qed.

Lemma map_reduce_word_order_witness :
  Permutation (tokenize (py "a cat")) (tokenize (py "cat, a")) /\
  same_items (map_reduce ascii_lower (py "a cat"))
             (map_reduce ascii_lower (py "cat, a")).
Proof.
  assert (H : Permutation (tokenize (py "a cat")) (tokenize (py "cat, a")))
    by apply perm_swap.
  split; [exact H | ]. exact (map_reduce_word_order ascii_lower _ _ H).
Defined.
